(** * edwards25519: field exponentiation chain, key generation, keys and (R,S) signatures

    A shallow embedding of the Go package [edwards25519]:
    - [Fe]: [FeDivPowM1] (the inlined [fe_pow22523] addition chain) as a
      procedure over a store of field elements;
    - [Keygen]: [GenerateKey] as a function of the randomness reader, logging
      its calls to the hash and to the group arithmetic;
    - [RS]: key and signature parsing and the (R, S) scheme.  Their Go files
      are not among the sources (only the test that calls them is), so they
      are modelled from the words of the specification. *)

From Stdlib Require Import ZArith Zpow_facts Zcong Lia List.
From stdpp Require Import base numbers option list gmap.

Local Open Scope Z_scope.

(** A byte is an integer in [0, 256).  The [&=] and [|=] of [GenerateKey] keep
    a [uint8] in that range, so no wrap-around is written out for them. *)
Abbreviation byte := Z (only parsing).

(** ** Field side: [FeDivPowM1] *)

Module Fe.

(** The field prime. *)
Definition p : Z := 2 ^ 255 - 19.

(** A generic modular exponentiation: the usual right-to-left binary loop,
    one squaring per bit of the exponent and one multiplication per set bit. *)
Fixpoint modexp_pos (b : Z) (e : positive) (m : Z) : Z :=
  match e with
  | xH => b mod m
  | xO e' => modexp_pos (b * b mod m) e' m
  | xI e' => (b * modexp_pos (b * b mod m) e' m) mod m
  end.

Definition modexp (b e m : Z) : Z :=
  match e with
  | Z0 => 1 mod m
  | Zpos e' => modexp_pos b e' m
  | Zneg _ => 0
  end.

(** The five temporaries [var v3, uv7, t0, t1, t2 FieldElement]. *)
Inductive local : Set := v3 | uv7 | t0 | t1 | t2.

(** Addresses of field elements owned by the caller. *)
Definition ptr : Set := positive.

(** What a [*FieldElement] argument can be: [&x] for a temporary [x], or a
    pointer the caller passed in. *)
Inductive place : Set :=
  | Local (x : local)
  | Deref (a : ptr).

Section Chain.

(** [FieldElement], [FeMul] and [FeSquare] are declared in files of the
    package that are not part of the sources at hand; they are taken as
    parameters.  [fe_mul f g] is the limb vector [FeMul(h, f, g)] leaves in
    [*h], [fe_square f] the one [FeSquare(h, f)] leaves there, [fe_zero] the
    zero value of the type, [feval] the integer a limb vector stands for and
    [bounded] the limb range the two routines expect and re-establish. *)
Variable FieldElement : Type.
Variable fe_zero : FieldElement.
Variable feval : FieldElement -> Z.
Variable bounded : FieldElement -> Prop.
Variable fe_mul : FieldElement -> FieldElement -> FieldElement.
Variable fe_square : FieldElement -> FieldElement.

(** The frame of one call of [FeDivPowM1]: its five temporaries. *)
Record locals : Type := Locals {
  l_v3 : FieldElement;
  l_uv7 : FieldElement;
  l_t0 : FieldElement;
  l_t1 : FieldElement;
  l_t2 : FieldElement
}.

Definition get_local (x : local) (fr : locals) : FieldElement :=
  match x with
  | v3 => l_v3 fr
  | uv7 => l_uv7 fr
  | t0 => l_t0 fr
  | t1 => l_t1 fr
  | t2 => l_t2 fr
  end.

Definition set_local (x : local) (a : FieldElement) (fr : locals) : locals :=
  match x with
  | v3 => Locals a (l_uv7 fr) (l_t0 fr) (l_t1 fr) (l_t2 fr)
  | uv7 => Locals (l_v3 fr) a (l_t0 fr) (l_t1 fr) (l_t2 fr)
  | t0 => Locals (l_v3 fr) (l_uv7 fr) a (l_t1 fr) (l_t2 fr)
  | t1 => Locals (l_v3 fr) (l_uv7 fr) (l_t0 fr) a (l_t2 fr)
  | t2 => Locals (l_v3 fr) (l_uv7 fr) (l_t0 fr) (l_t1 fr) a
  end.

(** The store: the caller's field elements by address, and the frame of the
    running call.  An address outside [heap] stands for [nil]. *)
Record state : Type := State {
  heap : gmap ptr FieldElement;
  frame : locals
}.

(** Commands: [None] is a run-time panic (a [nil] dereference). *)
Definition cmd : Type := state -> option state.

Definition load (pl : place) (s : state) : option FieldElement :=
  match pl with
  | Local x => Some (get_local x (frame s))
  | Deref a => heap s !! a
  end.

Definition store (pl : place) (a : FieldElement) (s : state) : option state :=
  match pl with
  | Local x => Some (State (heap s) (set_local x a (frame s)))
  | Deref q =>
      match heap s !! q with
      | Some _ => Some (State (<[q := a]> (heap s)) (frame s))
      | None => None
      end
  end.

Definition seq (c1 c2 : cmd) : cmd :=
  fun s => match c1 s with Some s' => c2 s' | None => None end.

Definition skip : cmd := fun s => Some s.

(** [for i := 0; i < n; i++ { body }] with a body that does not use [i]. *)
Fixpoint for_loop (n : nat) (body : cmd) : cmd :=
  match n with
  | O => skip
  | S n' => seq body (for_loop n' body)
  end.

(** [FeSquare(h, f)]: reads [*f], then writes [*h]. *)
Definition FeSquare (h f : place) : cmd :=
  fun s =>
    match load f s with
    | Some x => store h (fe_square x) s
    | None => None
    end.

(** [FeMul(h, f, g)]: reads [*f] and [*g], then writes [*h]. *)
Definition FeMul (h f g : place) : cmd :=
  fun s =>
    match load f s, load g s with
    | Some x, Some y => store h (fe_mul x y) s
    | _, _ => None
    end.

Declare Scope cmd_scope.
Delimit Scope cmd_scope with cmd.
Notation "c1 ;; c2" := (seq c1 c2)
  (at level 100, c2 at level 200, right associativity) : cmd_scope.

(** The body of [FeDivPowM1], statement by statement. *)
Definition FeDivPowM1_body (r u v : ptr) : cmd :=
 (
  (* v3 = v^3 *)
  FeSquare (Local v3) (Deref v) ;;
  FeMul (Local v3) (Local v3) (Deref v) ;;
  (* uv7 = u * v^7 *)
  FeSquare (Local uv7) (Local v3) ;;
  FeMul (Local uv7) (Local uv7) (Deref v) ;;
  FeMul (Local uv7) (Local uv7) (Deref u) ;;
  (* Step 1 *)
  FeSquare (Local t0) (Local uv7) ;;
  FeSquare (Local t1) (Local t0) ;;
  FeSquare (Local t1) (Local t1) ;;
  FeMul (Local t1) (Local uv7) (Local t1) ;;
  FeMul (Local t0) (Local t0) (Local t1) ;;
  FeSquare (Local t0) (Local t0) ;;
  FeMul (Local t0) (Local t1) (Local t0) ;;
  (* Step 2 *)
  FeSquare (Local t1) (Local t0) ;;
  for_loop 4 (FeSquare (Local t1) (Local t1)) ;;
  FeMul (Local t0) (Local t1) (Local t0) ;;
  (* Step 3 *)
  FeSquare (Local t1) (Local t0) ;;
  for_loop 9 (FeSquare (Local t1) (Local t1)) ;;
  FeMul (Local t1) (Local t1) (Local t0) ;;
  (* Step 4 *)
  FeSquare (Local t2) (Local t1) ;;
  for_loop 19 (FeSquare (Local t2) (Local t2)) ;;
  FeMul (Local t1) (Local t2) (Local t1) ;;
  (* Step 5 *)
  for_loop 10 (FeSquare (Local t1) (Local t1)) ;;
  FeMul (Local t0) (Local t1) (Local t0) ;;
  (* Step 6 *)
  FeSquare (Local t1) (Local t0) ;;
  for_loop 49 (FeSquare (Local t1) (Local t1)) ;;
  FeMul (Local t1) (Local t1) (Local t0) ;;
  (* Step 7 *)
  FeSquare (Local t2) (Local t1) ;;
  for_loop 99 (FeSquare (Local t2) (Local t2)) ;;
  FeMul (Local t1) (Local t2) (Local t1) ;;
  (* Step 8 *)
  for_loop 50 (FeSquare (Local t1) (Local t1)) ;;
  FeMul (Local t0) (Local t1) (Local t0) ;;
  FeSquare (Local t0) (Local t0) ;;
  FeSquare (Local t0) (Local t0) ;;
  (* t0 = (uv7)^((q-5)/8) *)
  FeMul (Local t0) (Local t0) (Local uv7) ;;
  (* Multiply by v^3 *)
  FeMul (Local t0) (Local t0) (Local v3) ;;
  (* Finally, multiply by u => r *)
  FeMul (Deref r) (Local t0) (Deref u)
 )%cmd.

(** [FeDivPowM1(r, u, v)] on the caller's store: the temporaries start at
    the zero value and are gone when the call returns. *)
Definition FeDivPowM1 (r u v : ptr) (h : gmap ptr FieldElement)
  : option (gmap ptr FieldElement) :=
  match FeDivPowM1_body r u v (State h (Locals fe_zero fe_zero fe_zero fe_zero fe_zero)) with
  | Some s' => Some (heap s')
  | None => None
  end.

(** [n] squarings in a row. *)
Fixpoint sq_n (n : nat) (a : FieldElement) : FieldElement :=
  match n with
  | O => a
  | S n' => sq_n n' (fe_square a)
  end.

(** The data flow of the chain raising [x] to [2^252 - 3], written with its
    blocks of 5, 10, 20, 10, 50, 100, 50 and 2 squarings. *)
Definition pow22523 (x : FieldElement) : FieldElement :=
  let a2 := fe_square x in
  let a9 := fe_mul x (sq_n 2 a2) in
  let a11 := fe_mul a2 a9 in
  let a31 := fe_mul a9 (fe_square a11) in
  let b10 := fe_mul (sq_n 5 a31) a31 in
  let b20 := fe_mul (sq_n 10 b10) b10 in
  let b40 := fe_mul (sq_n 20 b20) b20 in
  let b50 := fe_mul (sq_n 10 b40) b10 in
  let b100 := fe_mul (sq_n 50 b50) b50 in
  let b200 := fe_mul (sq_n 100 b100) b100 in
  let b250 := fe_mul (sq_n 50 b200) b50 in
  fe_mul (sq_n 2 b250) x.

(** The value [FeDivPowM1] leaves in [*r], as a function of [*u] and [*v]. *)
Definition divpowm1 (fu fv : FieldElement) : FieldElement :=
  let c3 := fe_mul (fe_square fv) fv in
  let c7 := fe_mul (fe_mul (fe_square c3) fv) fu in
  fe_mul (fe_mul (pow22523 c7) c3) fu.

(** What the missing routines are assumed to do: on limb vectors in range
    they return a limb vector in range that stands for the product modulo [p]. *)
Hypothesis fe_mul_spec : forall a b, bounded a -> bounded b ->
  bounded (fe_mul a b) /\ feval (fe_mul a b) mod p = (feval a * feval b) mod p.
Hypothesis fe_square_spec : forall a, bounded a ->
  bounded (fe_square a) /\ feval (fe_square a) mod p = (feval a * feval a) mod p.

(** [a] is in range and stands for the integer [z] modulo [p]. *)
Definition represents (a : FieldElement) (z : Z) : Prop :=
  bounded a /\ feval a mod p = z mod p.

(** [a] stands for the power [X ^ e]. *)
Definition pw (X e : Z) (a : FieldElement) : Prop :=
  0 <= e /\ represents a (X ^ e).

(** *** Running the body *)

Lemma set_get_local (x : local) (fr : locals) :
  set_local x (get_local x fr) fr = fr.
Proof. destruct x, fr; reflexivity. Qed.

Lemma set_set_local (x : local) (a b : FieldElement) (fr : locals) :
  set_local x a (set_local x b fr) = set_local x a fr.
Proof. destruct x; reflexivity. Qed.

Lemma get_set_local (x : local) (a : FieldElement) (fr : locals) :
  get_local x (set_local x a fr) = a.
Proof. destruct x; reflexivity. Qed.

Lemma for_loop_FeSquare_local (n : nat) (x : local) (s : state) :
  for_loop n (FeSquare (Local x) (Local x)) s
  = Some (State (heap s) (set_local x (sq_n n (get_local x (frame s))) (frame s))).
Proof.
  revert s; induction n as [|n IH]; intros [h fr]; simpl.
  - unfold skip. by rewrite set_get_local.
  - unfold seq, FeSquare at 1. simpl. rewrite IH. simpl.
    by rewrite get_set_local, set_set_local.
Qed.

Lemma seq_run (c1 c2 : cmd) (s s' : state) :
  c1 s = Some s' -> seq c1 c2 s = c2 s'.
Proof. intros H. unfold seq. by rewrite H. Qed.

Lemma FeSquare_run (h f : place) (s s' : state) (x : FieldElement) :
  load f s = Some x -> store h (fe_square x) s = Some s' ->
  FeSquare h f s = Some s'.
Proof. intros Hf Hs. unfold FeSquare. by rewrite Hf. Qed.

Lemma FeMul_run (h f g : place) (s s' : state) (x y : FieldElement) :
  load f s = Some x -> load g s = Some y ->
  store h (fe_mul x y) s = Some s' ->
  FeMul h f g s = Some s'.
Proof. intros Hf Hg Hs. unfold FeMul. by rewrite Hf, Hg. Qed.

Ltac run_load :=
  cbn [load heap frame get_local set_local l_v3 l_uv7 l_t0 l_t1 l_t2];
  first [ reflexivity | eassumption ].

Ltac run_step :=
  erewrite seq_run;
  [ | first
        [ apply for_loop_FeSquare_local
        | eapply FeSquare_run; [ run_load | reflexivity ]
        | eapply FeMul_run; [ run_load | run_load | reflexivity ] ] ];
  cbn [heap frame get_local set_local l_v3 l_uv7 l_t0 l_t1 l_t2].

Lemma FeDivPowM1_body_run (r u v : ptr) (h : gmap ptr FieldElement)
    (fu fv : FieldElement) (fr : locals) :
  h !! u = Some fu -> h !! v = Some fv -> is_Some (h !! r) ->
  exists fr', FeDivPowM1_body r u v (State h fr)
              = Some (State (<[r := divpowm1 fu fv]> h) fr').
Proof.
  intros Hu Hv [fr0 Hr].
  unfold FeDivPowM1_body.
  do 35 run_step.
  eexists. eapply FeMul_run; [ run_load | run_load | ].
  cbn [store heap frame]. rewrite Hr. reflexivity.
Qed.

(** *** The value computed *)

Lemma p_pos : 0 < p.
Proof. reflexivity. Qed.

Lemma modexp_pos_correct (e : positive) (b m : Z) :
  0 < m -> modexp_pos b e m = b ^ Zpos e mod m.
Proof.
  intros Hm. revert b.
  induction e as [e IH | e IH |]; intros b; simpl modexp_pos.
  - rewrite IH, <- Zpower_mod by lia.
    rewrite Z.mul_mod_idemp_r by lia. f_equal.
    rewrite Pos2Z.inj_xI, Z.pow_add_r, Z.pow_mul_r by lia.
    rewrite Z.pow_1_r, Z.pow_2_r. lia.
  - rewrite IH, <- Zpower_mod by lia. f_equal.
    rewrite Pos2Z.inj_xO, Z.pow_mul_r by lia.
    by rewrite Z.pow_2_r.
  - by rewrite Z.pow_1_r.
Qed.

Lemma modexp_correct (b e m : Z) :
  0 < m -> 0 <= e -> modexp b e m = b ^ e mod m.
Proof.
  intros Hm He. destruct e as [|e|e]; simpl modexp.
  - reflexivity.
  - by apply modexp_pos_correct.
  - lia.
Qed.

Lemma represents_ext (a : FieldElement) (z z' : Z) :
  represents a z -> z = z' -> represents a z'.
Proof. by intros H <-. Qed.

Lemma represents_mul (a b : FieldElement) (x y : Z) :
  represents a x -> represents b y -> represents (fe_mul a b) (x * y).
Proof.
  intros [Ba Ha] [Bb Hb]. destruct (fe_mul_spec a b Ba Bb) as [B H].
  split; [exact B|].
  rewrite H, Z.mul_mod, Ha, Hb, <- Z.mul_mod; [done | done | done].
Qed.

Lemma represents_square (a : FieldElement) (x : Z) :
  represents a x -> represents (fe_square a) (x * x).
Proof.
  intros [Ba Ha]. destruct (fe_square_spec a Ba) as [B H].
  split; [exact B|].
  rewrite H, Z.mul_mod, Ha, <- Z.mul_mod; [done | done | done].
Qed.

Lemma pw_eq (X e e' : Z) (a : FieldElement) :
  pw X e a -> e = e' -> pw X e' a.
Proof. by intros H <-. Qed.

Lemma pw_base (X : Z) (a : FieldElement) : represents a X -> pw X 1 a.
Proof. intros H. split; [lia|]. by rewrite Z.pow_1_r. Qed.

Lemma pw_mul (X e f : Z) (a b : FieldElement) :
  pw X e a -> pw X f b -> pw X (e + f) (fe_mul a b).
Proof.
  intros [He Ha] [Hf Hb]. split; [lia|].
  rewrite Z.pow_add_r by lia. by apply represents_mul.
Qed.

Lemma pw_square (X e : Z) (a : FieldElement) :
  pw X e a -> pw X (2 * e) (fe_square a).
Proof.
  intros [He Ha]. split; [lia|].
  replace (2 * e) with (e + e) by lia.
  rewrite Z.pow_add_r by lia. by apply represents_square.
Qed.

Lemma pw_sq_n (n : nat) (X e : Z) (a : FieldElement) :
  pw X e a -> pw X (2 ^ Z.of_nat n * e) (sq_n n a).
Proof.
  revert e a. induction n as [|n IH]; intros e a H.
  - simpl sq_n. eapply pw_eq; [exact H|]. simpl. lia.
  - simpl sq_n. eapply pw_eq; [apply IH, pw_square, H|].
    rewrite Nat2Z.inj_succ, Z.pow_succ_r by lia. lia.
Qed.

Ltac pw_chain :=
  eapply pw_eq;
  [ repeat first [ eassumption | eapply pw_mul | eapply pw_sq_n | eapply pw_square ]
  | vm_compute; reflexivity ].

Lemma pow22523_pw (x : FieldElement) (X : Z) :
  represents x X -> pw X (2 ^ 252 - 3) (pow22523 x).
Proof.
  intros Hx%pw_base. unfold pow22523.
  set (a2 := fe_square x).
  assert (H2 : pw X 2 a2) by (subst a2; pw_chain). clearbody a2.
  set (a9 := fe_mul x (sq_n 2 a2)).
  assert (H9 : pw X 9 a9) by (subst a9; pw_chain). clearbody a9.
  set (a11 := fe_mul a2 a9).
  assert (H11 : pw X 11 a11) by (subst a11; pw_chain). clearbody a11.
  set (a31 := fe_mul a9 (fe_square a11)).
  assert (H31 : pw X (2 ^ 5 - 1) a31) by (subst a31; pw_chain). clearbody a31.
  set (b10 := fe_mul (sq_n 5 a31) a31).
  assert (H10 : pw X (2 ^ 10 - 1) b10) by (subst b10; pw_chain). clearbody b10.
  set (b20 := fe_mul (sq_n 10 b10) b10).
  assert (H20 : pw X (2 ^ 20 - 1) b20) by (subst b20; pw_chain). clearbody b20.
  set (b40 := fe_mul (sq_n 20 b20) b20).
  assert (H40 : pw X (2 ^ 40 - 1) b40) by (subst b40; pw_chain). clearbody b40.
  set (b50 := fe_mul (sq_n 10 b40) b10).
  assert (H50 : pw X (2 ^ 50 - 1) b50) by (subst b50; pw_chain). clearbody b50.
  set (b100 := fe_mul (sq_n 50 b50) b50).
  assert (H100 : pw X (2 ^ 100 - 1) b100) by (subst b100; pw_chain). clearbody b100.
  set (b200 := fe_mul (sq_n 100 b100) b100).
  assert (H200 : pw X (2 ^ 200 - 1) b200) by (subst b200; pw_chain). clearbody b200.
  set (b250 := fe_mul (sq_n 50 b200) b50).
  assert (H250 : pw X (2 ^ 250 - 1) b250) by (subst b250; pw_chain). clearbody b250.
  pw_chain.
Qed.

Lemma exponent_value : (p - 5) / 8 = 2 ^ 252 - 3.
Proof. reflexivity. Qed.

Lemma divpowm1_represents (fu fv : FieldElement) (U V : Z) :
  represents fu U -> represents fv V ->
  represents (divpowm1 fu fv) (U * V ^ 3 * (U * V ^ 7) ^ ((p - 5) / 8)).
Proof.
  intros Hu Hv. unfold divpowm1.
  set (c3 := fe_mul (fe_square fv) fv).
  assert (H3 : represents c3 (V ^ 3)).
  { subst c3. eapply represents_ext.
    - apply represents_mul; [apply represents_square, Hv | exact Hv].
    - ring. }
  clearbody c3.
  set (c7 := fe_mul (fe_mul (fe_square c3) fv) fu).
  assert (H7 : represents c7 (U * V ^ 7)).
  { subst c7. eapply represents_ext.
    - apply represents_mul; [|exact Hu].
      apply represents_mul; [|exact Hv].
      apply represents_square, H3.
    - ring. }
  clearbody c7.
  rewrite exponent_value.
  destruct (pow22523_pw c7 _ H7) as [_ Hp].
  eapply represents_ext.
  - apply represents_mul; [|exact Hu].
    apply represents_mul; [exact Hp | exact H3].
  - ring.
Qed.

Lemma FeDivPowM1_run (r u v : ptr) (h : gmap ptr FieldElement)
    (fu fv : FieldElement) :
  h !! u = Some fu -> h !! v = Some fv -> is_Some (h !! r) ->
  FeDivPowM1 r u v h = Some (<[r := divpowm1 fu fv]> h).
Proof.
  intros Hu Hv Hr. unfold FeDivPowM1.
  destruct (FeDivPowM1_body_run r u v h fu fv
              (Locals fe_zero fe_zero fe_zero fe_zero fe_zero) Hu Hv Hr)
    as [fr' ->].
  reflexivity.
Qed.

(** C1. For field elements [*u] and [*v] in range, and whatever the aliasing
    of [r] with [u] and [v], [FeDivPowM1(r, u, v)] returns and leaves in [*r]
    the limb vector [divpowm1 fu fv] (the chain with its squaring blocks of 5,
    10, 20, 10, 50, 100, 50 and 2), which is in range and stands for
    [u * v^3 * (u * v^7)^((p-5)/8)] modulo [p]; the exponent [(p-5)/8] is
    [2^252 - 3], and the power is the one the generic loop [modexp] returns. *)
Theorem FeDivPowM1_value (r u v : ptr) (h : gmap ptr FieldElement)
    (fu fv : FieldElement) :
  h !! u = Some fu -> h !! v = Some fv -> is_Some (h !! r) ->
  bounded fu -> bounded fv ->
  FeDivPowM1 r u v h = Some (<[r := divpowm1 fu fv]> h) /\
  bounded (divpowm1 fu fv) /\
  feval (divpowm1 fu fv) mod p
  = (feval fu * feval fv ^ 3 * (feval fu * feval fv ^ 7) ^ ((p - 5) / 8)) mod p /\
  (p - 5) / 8 = 2 ^ 252 - 3 /\
  feval (divpowm1 fu fv) mod p
  = (feval fu * feval fv ^ 3
     * modexp (feval fu * feval fv ^ 7) ((p - 5) / 8) p) mod p.
Proof.
  intros Hu Hv Hr Bu Bv.
  assert (Ru : represents fu (feval fu)) by (by split).
  assert (Rv : represents fv (feval fv)) by (by split).
  destruct (divpowm1_represents fu fv _ _ Ru Rv) as [B E].
  split; [by apply FeDivPowM1_run|].
  split; [exact B|]. split; [exact E|]. split; [exact exponent_value|].
  rewrite E, modexp_correct by (rewrite ?exponent_value; done).
  by rewrite Z.mul_mod_idemp_r.
Qed.

(** C9. With [u], [v] and [r] valid and [r] distinct from [u] and [v], the
    call returns a store in which [*u] and [*v] hold what they held before;
    every address other than [r] keeps its content. *)
Theorem FeDivPowM1_operands_unchanged (r u v : ptr)
    (h : gmap ptr FieldElement) (fu fv : FieldElement) :
  h !! u = Some fu -> h !! v = Some fv -> is_Some (h !! r) ->
  r <> u -> r <> v ->
  exists h', FeDivPowM1 r u v h = Some h' /\
             h' !! u = Some fu /\ h' !! v = Some fv /\
             forall a, a <> r -> h' !! a = h !! a.
Proof.
  intros Hu Hv Hr Hru Hrv.
  exists (<[r := divpowm1 fu fv]> h).
  split; [by apply FeDivPowM1_run|].
  split; [by rewrite lookup_insert_ne|].
  split; [by rewrite lookup_insert_ne|].
  intros a Ha. by rewrite lookup_insert_ne.
Qed.

(** *** Further properties of [FeDivPowM1] *)

Lemma seq_fail (c1 c2 : cmd) (s : state) :
  c1 s = None -> seq c1 c2 s = None.
Proof. intros H. unfold seq. by rewrite H. Qed.

Lemma FeDivPowM1_body_nil_v (r u v : ptr) (h : gmap ptr FieldElement)
    (fr : locals) :
  h !! v = None -> FeDivPowM1_body r u v (State h fr) = None.
Proof.
  intros Hv. unfold FeDivPowM1_body. apply seq_fail.
  unfold FeSquare. cbn [load heap]. by rewrite Hv.
Qed.

Lemma FeDivPowM1_body_nil_u (r u v : ptr) (h : gmap ptr FieldElement)
    (fv : FieldElement) (fr : locals) :
  h !! v = Some fv -> h !! u = None ->
  FeDivPowM1_body r u v (State h fr) = None.
Proof.
  intros Hv Hu. unfold FeDivPowM1_body.
  do 4 run_step. apply seq_fail.
  unfold FeMul. cbn [load heap frame]. by rewrite Hu.
Qed.

Lemma FeDivPowM1_body_nil_r (r u v : ptr) (h : gmap ptr FieldElement)
    (fu fv : FieldElement) (fr : locals) :
  h !! u = Some fu -> h !! v = Some fv -> h !! r = None ->
  FeDivPowM1_body r u v (State h fr) = None.
Proof.
  intros Hu Hv Hr. unfold FeDivPowM1_body.
  do 35 run_step.
  unfold FeMul. cbn [load store heap frame]. by rewrite Hu, Hr.
Qed.

(** X1. [FeDivPowM1] panics exactly when one of its three pointers is [nil]:
    with [u], [v] and [r] all valid it returns, and with any of them invalid
    it does not. *)
Theorem FeDivPowM1_panics_iff (r u v : ptr) (h : gmap ptr FieldElement) :
  FeDivPowM1 r u v h = None
  <-> h !! u = None \/ h !! v = None \/ h !! r = None.
Proof.
  unfold FeDivPowM1.
  destruct (h !! v) as [fv|] eqn:Hv.
  - destruct (h !! u) as [fu|] eqn:Hu.
    + destruct (h !! r) as [fr0|] eqn:Hr.
      * destruct (FeDivPowM1_body_run r u v h fu fv
                    (Locals fe_zero fe_zero fe_zero fe_zero fe_zero) Hu Hv)
          as [fr' ->]; [by eexists|].
        split; [discriminate | intros [?|[?|?]]; discriminate].
      * rewrite (FeDivPowM1_body_nil_r r u v h fu fv _ Hu Hv Hr).
        split; [by auto | reflexivity].
    + rewrite (FeDivPowM1_body_nil_u r u v h fv _ Hv Hu).
      split; [by auto | reflexivity].
  - rewrite (FeDivPowM1_body_nil_v r u v h _ Hv).
    split; [by auto | reflexivity].
Qed.

Lemma FeDivPowM1_result (r u v : ptr) (h : gmap ptr FieldElement)
    (fu fv : FieldElement) :
  h !! u = Some fu -> h !! v = Some fv -> is_Some (h !! r) ->
  bounded fu -> bounded fv ->
  FeDivPowM1 r u v h = Some (<[r := divpowm1 fu fv]> h) /\
  represents (divpowm1 fu fv)
    (feval fu * feval fv ^ 3 * (feval fu * feval fv ^ 7) ^ (2 ^ 252 - 3)).
Proof.
  intros Hu Hv Hr Bu Bv. split; [by apply FeDivPowM1_run|].
  rewrite <- exponent_value. apply divpowm1_represents; by split.
Qed.

(** X2. A zero operand gives a zero result instead of a failure: when [*u]
    or [*v] stands for 0 modulo [p], the call returns and [*r] stands for 0. *)
Theorem FeDivPowM1_zero_operand (r u v : ptr) (h : gmap ptr FieldElement)
    (fu fv : FieldElement) :
  h !! u = Some fu -> h !! v = Some fv -> is_Some (h !! r) ->
  bounded fu -> bounded fv ->
  feval fu mod p = 0 \/ feval fv mod p = 0 ->
  exists fr, FeDivPowM1 r u v h = Some (<[r := fr]> h) /\
             feval fr mod p = 0.
Proof.
  intros Hu Hv Hr Bu Bv Hz.
  destruct (FeDivPowM1_result r u v h fu fv Hu Hv Hr Bu Bv) as [Hrun [_ E]].
  exists (divpowm1 fu fv). split; [exact Hrun|]. rewrite E.
  set (W := (feval fu * feval fv ^ 7) ^ (2 ^ 252 - 3)). clearbody W.
  destruct Hz as [Hz|Hz].
  - rewrite <- Z.mul_assoc, <- Z.mul_mod_idemp_l, Hz by done. reflexivity.
  - replace (feval fu * feval fv ^ 3 * W)
      with (feval fv * (feval fu * feval fv ^ 2 * W)) by ring.
    rewrite <- Z.mul_mod_idemp_l, Hz by done. reflexivity.
Qed.

(** X3. The result depends on the operands only through the field elements
    they stand for: two calls whose operands are limb vectors of the same
    values modulo [p] leave limb vectors of the same value. *)
Theorem FeDivPowM1_respects_equivalence (r u v r' u' v' : ptr)
    (h h' : gmap ptr FieldElement) (fu fv fu' fv' : FieldElement) :
  h !! u = Some fu -> h !! v = Some fv -> is_Some (h !! r) ->
  h' !! u' = Some fu' -> h' !! v' = Some fv' -> is_Some (h' !! r') ->
  bounded fu -> bounded fv -> bounded fu' -> bounded fv' ->
  feval fu mod p = feval fu' mod p -> feval fv mod p = feval fv' mod p ->
  exists a b, FeDivPowM1 r u v h = Some (<[r := a]> h) /\
              FeDivPowM1 r' u' v' h' = Some (<[r' := b]> h') /\
              feval a mod p = feval b mod p.
Proof.
  intros Hu Hv Hr Hu' Hv' Hr' Bu Bv Bu' Bv' Eu Ev.
  exists (divpowm1 fu fv), (divpowm1 fu' fv').
  split; [by apply FeDivPowM1_run|]. split; [by apply FeDivPowM1_run|].
  assert (Ru : represents fu' (feval fu)) by (by split).
  assert (Rv : represents fv' (feval fv)) by (by split).
  destruct (divpowm1_represents fu' fv' _ _ Ru Rv) as [_ ->].
  assert (Ru0 : represents fu (feval fu)) by (by split).
  assert (Rv0 : represents fv (feval fv)) by (by split).
  by destruct (divpowm1_represents fu fv _ _ Ru0 Rv0) as [_ ->].
Qed.

Lemma quarter_exponent : (p - 1) / 4 = 2 * (2 ^ 252 - 3) + 1.
Proof. reflexivity. Qed.

(** X4. The result is a square-root candidate for [u / v]: with [R] the
    value left in [*r], [v * R^2] is [u * (u * v^7)^((p-1)/4)] modulo [p];
    and whenever [(u * v^7)^(p-1)] is 1 modulo [p], the fourth powers of
    [v * R^2] and of [u] agree. *)
Theorem FeDivPowM1_square_relation (r u v : ptr) (h : gmap ptr FieldElement)
    (fu fv : FieldElement) :
  h !! u = Some fu -> h !! v = Some fv -> is_Some (h !! r) ->
  bounded fu -> bounded fv ->
  exists fr, FeDivPowM1 r u v h = Some (<[r := fr]> h) /\
    (feval fv * feval fr ^ 2) mod p
    = (feval fu * (feval fu * feval fv ^ 7) ^ ((p - 1) / 4)) mod p /\
    ((feval fu * feval fv ^ 7) ^ (p - 1) mod p = 1 ->
     (feval fv * feval fr ^ 2) ^ 4 mod p = feval fu ^ 4 mod p).
Proof.
  intros Hu Hv Hr Bu Bv.
  destruct (FeDivPowM1_result r u v h fu fv Hu Hv Hr Bu Bv) as [Hrun [_ E]].
  exists (divpowm1 fu fv). split; [exact Hrun|].
  set (R := feval (divpowm1 fu fv)) in *.
  set (U := feval fu) in *. set (V := feval fv) in *.
  assert (Hsq : (V * R ^ 2) mod p
                = (U * (U * V ^ 7) ^ ((p - 1) / 4)) mod p).
  { rewrite quarter_exponent.
    rewrite Z.pow_add_r, Z.pow_mul_r, Z.pow_1_r by done.
    rewrite (Z.pow_2_r (U * V ^ 7)), Z.pow_mul_l.
    clearbody R U V. revert E.
    generalize ((U * V ^ 7) ^ (2 ^ 252 - 3)). intros W E.
    rewrite Z.pow_2_r.
    rewrite <- (Z.mul_mod_idemp_r V (R * R)), (Z.mul_mod R R), E,
      <- (Z.mul_mod (U * V ^ 3 * W)), Z.mul_mod_idemp_r by done.
    f_equal. ring. }
  split; [exact Hsq|].
  intros Hone.
  rewrite Zpower_mod, Hsq, <- Zpower_mod by done.
  rewrite Z.pow_mul_l, <- Z.pow_mul_r by done.
  replace ((p - 1) / 4 * 4) with (p - 1) by reflexivity.
  by rewrite <- Z.mul_mod_idemp_r, Hone, Z.mul_1_r by done.
Qed.

(** X5. [FeDivPowM1] is multiplicative: on the products [FeMul] forms of
    [a], [b] and of [c], [d], it leaves the product, modulo [p], of what it
    leaves for [a], [c] and for [b], [d]. *)
Theorem FeDivPowM1_multiplicative (r u v : ptr) (h : gmap ptr FieldElement)
    (a b c d : FieldElement) :
  h !! u = Some (fe_mul a b) -> h !! v = Some (fe_mul c d) ->
  is_Some (h !! r) ->
  bounded a -> bounded b -> bounded c -> bounded d ->
  exists fr, FeDivPowM1 r u v h = Some (<[r := fr]> h) /\
    feval fr mod p
    = (feval (divpowm1 a c) * feval (divpowm1 b d)) mod p.
Proof.
  intros Hu Hv Hr Ba Bb Bc Bd.
  exists (divpowm1 (fe_mul a b) (fe_mul c d)).
  split; [by apply FeDivPowM1_run|].
  assert (Ra : represents a (feval a)) by (by split).
  assert (Rb : represents b (feval b)) by (by split).
  assert (Rc : represents c (feval c)) by (by split).
  assert (Rd : represents d (feval d)) by (by split).
  destruct (divpowm1_represents _ _ _ _ (represents_mul _ _ _ _ Ra Rb)
              (represents_mul _ _ _ _ Rc Rd)) as [_ ->].
  destruct (divpowm1_represents _ _ _ _ Ra Rc) as [_ Eac].
  destruct (divpowm1_represents _ _ _ _ Rb Rd) as [_ Ebd].
  rewrite (Z.mul_mod (feval (divpowm1 a c))), Eac, Ebd, <- Z.mul_mod by done.
  f_equal.
  replace (feval a * feval b * (feval c * feval d) ^ 7)
    with ((feval a * feval c ^ 7) * (feval b * feval d ^ 7)) by ring.
  rewrite (Z.pow_mul_l (feval a * feval c ^ 7)).
  generalize ((feval a * feval c ^ 7) ^ ((p - 5) / 8)).
  generalize ((feval b * feval d ^ 7) ^ ((p - 5) / 8)).
  intros W1 W2. ring.
Qed.

(** X6. The destination is write-only and the call can be repeated: with [r]
    distinct from [u] and [v], the store after the call does not depend on
    what [*r] held before, and calling again on the resulting store leaves
    it as it is. *)
Theorem FeDivPowM1_destination (r u v : ptr) (h : gmap ptr FieldElement)
    (fu fv x : FieldElement) :
  h !! u = Some fu -> h !! v = Some fv -> is_Some (h !! r) ->
  r <> u -> r <> v ->
  exists h', FeDivPowM1 r u v h = Some h' /\
             FeDivPowM1 r u v (<[r := x]> h) = Some h' /\
             FeDivPowM1 r u v h' = Some h'.
Proof.
  intros Hu Hv Hr Hru Hrv.
  exists (<[r := divpowm1 fu fv]> h).
  split; [by apply FeDivPowM1_run|].
  split.
  - rewrite (FeDivPowM1_run r u v (<[r := x]> h) fu fv).
    + by rewrite insert_insert_eq.
    + by rewrite lookup_insert_ne.
    + by rewrite lookup_insert_ne.
    + rewrite lookup_insert_eq. by eexists.
  - rewrite (FeDivPowM1_run r u v (<[r := divpowm1 fu fv]> h) fu fv).
    + by rewrite insert_insert_eq.
    + by rewrite lookup_insert_ne.
    + by rewrite lookup_insert_ne.
    + rewrite lookup_insert_eq. by eexists.
Qed.

End Chain.

(** *** The chain run on integers modulo [p] *)

Definition zp_val (a : Z) : Z := a.
Definition zp_bounded (a : Z) : Prop := 0 <= a < p.
Definition zp_mul (a b : Z) : Z := (a * b) mod p.
Definition zp_square (a : Z) : Z := (a * a) mod p.

(** A store with [*u = 2] at address 1, [*v = 3] at address 2 and the
    destination at address 3. *)
Definition zp_heap : gmap ptr Z :=
  <[1%positive := 2]> (<[2%positive := 3]> (<[3%positive := 0]> ∅)).

Lemma zp_mul_spec (a b : Z) :
  zp_bounded a -> zp_bounded b ->
  zp_bounded (zp_mul a b) /\ zp_val (zp_mul a b) mod p = (zp_val a * zp_val b) mod p.
Proof.
  intros _ _. unfold zp_bounded, zp_mul, zp_val. split.
  - apply Z.mod_pos_bound, p_pos.
  - apply Z.mod_mod. pose proof p_pos. lia.
Qed.

Lemma zp_square_spec (a : Z) :
  zp_bounded a ->
  zp_bounded (zp_square a) /\ zp_val (zp_square a) mod p = (zp_val a * zp_val a) mod p.
Proof. intros H. exact (zp_mul_spec a a H H). Qed.

Example zp_FeDivPowM1_runs :
  FeDivPowM1 Z 0 zp_mul zp_square 3%positive 1%positive 2%positive zp_heap
  = Some (<[3%positive := (2 * 3 ^ 3 * modexp (2 * 3 ^ 7) (2 ^ 252 - 3) p) mod p]> zp_heap).
Proof. vm_compute. reflexivity. Qed.

Example zp_FeDivPowM1_in_place :
  FeDivPowM1 Z 0 zp_mul zp_square 1%positive 1%positive 2%positive zp_heap
  = Some (<[1%positive := (2 * 3 ^ 3 * modexp (2 * 3 ^ 7) (2 ^ 252 - 3) p) mod p]> zp_heap).
Proof. vm_compute. reflexivity. Qed.

Example zp_FeDivPowM1_nil :
  FeDivPowM1 Z 0 zp_mul zp_square 3%positive 1%positive 4%positive zp_heap = None.
Proof. vm_compute. reflexivity. Qed.

Lemma FeDivPowM1_value_witness :
  FeDivPowM1 Z 0 zp_mul zp_square 3%positive 1%positive 2%positive zp_heap
  = Some (<[3%positive := divpowm1 Z zp_mul zp_square 2 3]> zp_heap) /\
  zp_bounded (divpowm1 Z zp_mul zp_square 2 3) /\
  zp_val (divpowm1 Z zp_mul zp_square 2 3) mod p
  = (zp_val 2 * zp_val 3 ^ 3 * (zp_val 2 * zp_val 3 ^ 7) ^ ((p - 5) / 8)) mod p /\
  (p - 5) / 8 = 2 ^ 252 - 3 /\
  zp_val (divpowm1 Z zp_mul zp_square 2 3) mod p
  = (zp_val 2 * zp_val 3 ^ 3
     * modexp (zp_val 2 * zp_val 3 ^ 7) ((p - 5) / 8) p) mod p.
Proof.
  apply (FeDivPowM1_value Z 0 zp_val zp_bounded zp_mul zp_square
           zp_mul_spec zp_square_spec 3%positive 1%positive 2%positive zp_heap 2 3).
  - reflexivity.
  - reflexivity.
  - exists 0. reflexivity.
  - unfold zp_bounded, p. lia.
  - unfold zp_bounded, p. lia.
Defined.

Lemma FeDivPowM1_operands_unchanged_witness :
  exists h', FeDivPowM1 Z 0 zp_mul zp_square 3%positive 1%positive 2%positive zp_heap = Some h' /\
             h' !! 1%positive = Some 2 /\ h' !! 2%positive = Some 3 /\
             forall a, a <> 3%positive -> h' !! a = zp_heap !! a.
Proof.
  apply (FeDivPowM1_operands_unchanged Z 0 zp_mul zp_square 3%positive 1%positive 2%positive zp_heap 2 3).
  - reflexivity.
  - reflexivity.
  - exists 0. reflexivity.
  - discriminate.
  - discriminate.
Defined.

(** *** Further runs on integers modulo [p] *)

(** A looser range, in which a field element has two limb values. *)
Definition zp_loose (a : Z) : Prop := 0 <= a < 2 * p.

Definition zp_heap_zero : gmap ptr Z :=
  <[1%positive := 0]> (<[2%positive := 3]> (<[3%positive := 0]> ∅)).

Definition zp_heap_shifted : gmap ptr Z :=
  <[1%positive := 2 + p]> (<[2%positive := 3 + p]> (<[3%positive := 0]> ∅)).

Definition zp_heap_products : gmap ptr Z :=
  <[1%positive := zp_mul 2 5]> (<[2%positive := zp_mul 3 7]> (<[3%positive := 0]> ∅)).

Lemma zp_mul_spec_loose (a b : Z) :
  zp_loose a -> zp_loose b ->
  zp_loose (zp_mul a b) /\ zp_val (zp_mul a b) mod p = (zp_val a * zp_val b) mod p.
Proof.
  intros _ _. unfold zp_loose, zp_mul, zp_val. split.
  - pose proof (Z.mod_pos_bound (a * b) p p_pos). pose proof p_pos. lia.
  - apply Z.mod_mod. pose proof p_pos. lia.
Qed.

Lemma zp_square_spec_loose (a : Z) :
  zp_loose a ->
  zp_loose (zp_square a) /\ zp_val (zp_square a) mod p = (zp_val a * zp_val a) mod p.
Proof. intros H. exact (zp_mul_spec_loose a a H H). Qed.

Lemma FeDivPowM1_zero_operand_witness :
  exists fr,
    FeDivPowM1 Z 0 zp_mul zp_square 3%positive 1%positive 2%positive zp_heap_zero
    = Some (<[3%positive := fr]> zp_heap_zero) /\
    zp_val fr mod p = 0.
Proof.
  apply (FeDivPowM1_zero_operand Z 0 zp_val zp_bounded zp_mul zp_square
           zp_mul_spec zp_square_spec 3%positive 1%positive 2%positive
           zp_heap_zero 0 3).
  - reflexivity.
  - reflexivity.
  - exists 0. reflexivity.
  - unfold zp_bounded, p. lia.
  - unfold zp_bounded, p. lia.
  - left. reflexivity.
Defined.

Lemma FeDivPowM1_respects_equivalence_witness :
  exists a b,
    FeDivPowM1 Z 0 zp_mul zp_square 3%positive 1%positive 2%positive zp_heap
    = Some (<[3%positive := a]> zp_heap) /\
    FeDivPowM1 Z 0 zp_mul zp_square 3%positive 1%positive 2%positive zp_heap_shifted
    = Some (<[3%positive := b]> zp_heap_shifted) /\
    zp_val a mod p = zp_val b mod p.
Proof.
  apply (FeDivPowM1_respects_equivalence Z 0 zp_val zp_loose zp_mul zp_square
           zp_mul_spec_loose zp_square_spec_loose
           3%positive 1%positive 2%positive 3%positive 1%positive 2%positive
           zp_heap zp_heap_shifted 2 3 (2 + p) (3 + p)).
  - reflexivity.
  - reflexivity.
  - exists 0. reflexivity.
  - reflexivity.
  - reflexivity.
  - exists 0. reflexivity.
  - unfold zp_loose, p. lia.
  - unfold zp_loose, p. lia.
  - unfold zp_loose, p. lia.
  - unfold zp_loose, p. lia.
  - vm_compute. reflexivity.
  - vm_compute. reflexivity.
Defined.

Lemma FeDivPowM1_square_relation_witness :
  exists fr,
    FeDivPowM1 Z 0 zp_mul zp_square 3%positive 1%positive 2%positive zp_heap
    = Some (<[3%positive := fr]> zp_heap) /\
    (zp_val 3 * zp_val fr ^ 2) mod p
    = (zp_val 2 * (zp_val 2 * zp_val 3 ^ 7) ^ ((p - 1) / 4)) mod p /\
    ((zp_val 2 * zp_val 3 ^ 7) ^ (p - 1) mod p = 1 ->
     (zp_val 3 * zp_val fr ^ 2) ^ 4 mod p = zp_val 2 ^ 4 mod p).
Proof.
  apply (FeDivPowM1_square_relation Z 0 zp_val zp_bounded zp_mul zp_square
           zp_mul_spec zp_square_spec 3%positive 1%positive 2%positive
           zp_heap 2 3).
  - reflexivity.
  - reflexivity.
  - exists 0. reflexivity.
  - unfold zp_bounded, p. lia.
  - unfold zp_bounded, p. lia.
Defined.

(** The side condition of the fourth-power relation holds for the operands
    of [zp_heap]. *)
Example zp_unit_power : (zp_val 2 * zp_val 3 ^ 7) ^ (p - 1) mod p = 1.
Proof.
  rewrite <- modexp_correct by (unfold p; lia).
  vm_compute. reflexivity.
Qed.

Lemma FeDivPowM1_multiplicative_witness :
  exists fr,
    FeDivPowM1 Z 0 zp_mul zp_square 3%positive 1%positive 2%positive zp_heap_products
    = Some (<[3%positive := fr]> zp_heap_products) /\
    zp_val fr mod p
    = (zp_val (divpowm1 Z zp_mul zp_square 2 3)
       * zp_val (divpowm1 Z zp_mul zp_square 5 7)) mod p.
Proof.
  apply (FeDivPowM1_multiplicative Z 0 zp_val zp_bounded zp_mul zp_square
           zp_mul_spec zp_square_spec 3%positive 1%positive 2%positive
           zp_heap_products 2 5 3 7).
  - reflexivity.
  - reflexivity.
  - exists 0. reflexivity.
  - unfold zp_bounded, p. lia.
  - unfold zp_bounded, p. lia.
  - unfold zp_bounded, p. lia.
  - unfold zp_bounded, p. lia.
Defined.

Lemma FeDivPowM1_destination_witness :
  exists h',
    FeDivPowM1 Z 0 zp_mul zp_square 3%positive 1%positive 2%positive zp_heap = Some h' /\
    FeDivPowM1 Z 0 zp_mul zp_square 3%positive 1%positive 2%positive
      (<[3%positive := 7]> zp_heap) = Some h' /\
    FeDivPowM1 Z 0 zp_mul zp_square 3%positive 1%positive 2%positive h' = Some h'.
Proof.
  apply (FeDivPowM1_destination Z 0 zp_mul zp_square 3%positive 1%positive
           2%positive zp_heap 2 3 7).
  - reflexivity.
  - reflexivity.
  - exists 0. reflexivity.
  - discriminate.
  - discriminate.
Defined.

End Fe.

(** ** Key generation: [GenerateKey] *)

Module Keygen.

Definition PublicKeySize : nat := 32.
Definition PrivateKeySize : nat := 64.

(** Errors of package [io]. *)
Inductive error : Set :=
  | EOF
  | ErrUnexpectedEOF
  | ErrOther (code : nat).

(** An [io.Reader] as the byte stream it will deliver and the error it
    reports once the stream is exhausted.  A reader that blocks for ever is
    outside this model. *)
Record Reader : Set := MkReader {
  pending : list byte;
  at_end : error
}.

(** [io.ReadFull(r, buf)]: the new content of [buf] and the error.  The error
    is [nil] exactly when [buf] was filled; it is [EOF] only if no byte was
    read, and an [EOF] after some bytes becomes [ErrUnexpectedEOF]. *)
Definition ReadFull (r : Reader) (buf : list byte) : list byte * option error :=
  if decide (length buf <= length (pending r))%nat then
    (take (length buf) (pending r), None)
  else
    (pending r ++ drop (length (pending r)) buf,
     Some match pending r, at_end r with
          | _ :: _, EOF => ErrUnexpectedEOF
          | _, e => e
          end).

(** The built-in [copy(dst, src)]: the new content of [dst]. *)
Definition go_copy (dst src : list byte) : list byte :=
  take (length dst) src ++ drop (length src) dst.

(** The calls [GenerateKey] makes into the hash and the group arithmetic. *)
Inductive call : Set :=
  | CallSha512 (input : list byte)
  | CallGeScalarMultBase (scalar : list byte)
  | CallToBytes.

Inductive outcome (A : Type) : Type :=
  | Done (a : A)
  | Panic.
Arguments Done {A} a.
Arguments Panic {A}.

(** Computations that log their calls and may panic (index out of range). *)
Definition M (A : Type) : Type := (outcome A * list call)%type.

#[global] Instance M_ret : MRet M := fun A a => (Done a, []).
#[global] Instance M_bind : MBind M := fun A B f m =>
  match m with
  | (Done a, t) => let '(r, t') := f a in (r, t ++ t')
  | (Panic, t) => (Panic, t)
  end.

(** [s[i] = f(s[i])] on a slice: panics when [i] is out of range. *)
Definition update_at (s : list byte) (i : nat) (f : byte -> byte) : M (list byte) :=
  match s !! i with
  | Some b => mret (<[i := f b]> s)
  | None => (Panic, [])
  end.

Section GenerateKey.

(** [crypto/sha512] is Go's library; [ExtendedGroupElement],
    [GeScalarMultBase] and [ToBytes] are declared in files of the package
    that are not part of the sources at hand.  They are taken as parameters:
    [sha512] is the digest of a message, [ge_scalarmult_base] the group
    element [GeScalarMultBase] stores for a 32-byte scalar and [ge_to_bytes]
    the 32 bytes [ToBytes] stores for a group element. *)
Variable sha512 : list byte -> list byte.
Variable ExtendedGroupElement : Type.
Variable ge_scalarmult_base : list byte -> ExtendedGroupElement.
Variable ge_to_bytes : ExtendedGroupElement -> list byte.

(** [h := sha512.New(); h.Write(m); digest := h.Sum(nil)]. *)
Definition Sum (m : list byte) : M (list byte) :=
  (Done (sha512 m), [CallSha512 m]).

Definition GeScalarMultBase (a : list byte) : M ExtendedGroupElement :=
  (Done (ge_scalarmult_base a), [CallGeScalarMultBase a]).

Definition ToBytes (A : ExtendedGroupElement) : M (list byte) :=
  (Done (ge_to_bytes A), [CallToBytes]).

(** [GenerateKey(rand)]: the triple [(publicKey, privateKey, err)], [None]
    standing for [nil]. *)
Definition GenerateKey (rand : Reader)
  : M (option (list byte) * option (list byte) * option error) :=
  let privateKey := replicate 64 0 in
  let publicKey := replicate 32 0 in
  let '(buf, err) := ReadFull rand (take 32 privateKey) in
  let privateKey := buf ++ drop 32 privateKey in
  match err with
  | Some e => mret (None, None, Some e)
  | None =>
      digest ← Sum (take 32 privateKey);
      digest ← update_at digest 0 (fun b => Z.land b 248);
      digest ← update_at digest 31 (fun b => Z.land b 127);
      digest ← update_at digest 31 (fun b => Z.lor b 64);
      let hBytes := go_copy (replicate 32 0) digest in
      A ← GeScalarMultBase hBytes;
      publicKey ← ToBytes A;
      let privateKey := take 32 privateKey ++ go_copy (drop 32 privateKey) publicKey in
      mret (Some publicKey, Some privateKey, None)
  end.

(** The scalar handed to [GeScalarMultBase]: the first half of the digest
    with bytes 0 and 31 masked. *)
Definition clamped (digest : list byte) : list byte :=
  take 32 (<[31%nat := Z.lor (Z.land (nth 31 digest 0) 127) 64]>
            (<[0%nat := Z.land (nth 0 digest 0) 248]> digest)).

Hypothesis sha512_length : forall m, length (sha512 m) = 64%nat.
Hypothesis ge_to_bytes_length : forall A, length (ge_to_bytes A) = 32%nat.

(** *** Properties *)

Lemma go_copy_longer (dst src : list byte) :
  (length dst <= length src)%nat -> go_copy dst src = take (length dst) src.
Proof.
  intros H. unfold go_copy. rewrite drop_ge by done. apply app_nil_r.
Qed.

Lemma go_copy_same_length (dst src : list byte) :
  length dst = length src -> go_copy dst src = src.
Proof.
  intros H. rewrite go_copy_longer by lia. rewrite H. apply firstn_all.
Qed.

Lemma ReadFull_ok (r : Reader) (buf : list byte) :
  (length buf <= length (pending r))%nat ->
  ReadFull r buf = (take (length buf) (pending r), None).
Proof. intros H. unfold ReadFull. by rewrite decide_True. Qed.

Lemma ReadFull_error (r : Reader) (buf buf' : list byte) (e : error) :
  ReadFull r buf = (buf', Some e) -> (length (pending r) < length buf)%nat.
Proof.
  unfold ReadFull. destruct (decide _) as [H|H]; [discriminate | lia].
Qed.

Lemma update_at_Some (s : list byte) (i : nat) (f : byte -> byte) (b : byte) :
  s !! i = Some b -> update_at s i f = (Done (<[i := f b]> s), []).
Proof. intros H. unfold update_at. by rewrite H. Qed.

Lemma GenerateKey_success (rand : Reader) :
  (32 <= length (pending rand))%nat ->
  let seed := take 32 (pending rand) in
  let pub := ge_to_bytes (ge_scalarmult_base (clamped (sha512 seed))) in
  GenerateKey rand
  = (Done (Some pub, Some (seed ++ pub), None),
     [CallSha512 seed; CallGeScalarMultBase (clamped (sha512 seed)); CallToBytes]).
Proof.
  intros Hlen seed pub. unfold GenerateKey.
  rewrite ReadFull_ok by (rewrite length_take, length_replicate; lia).
  rewrite length_take, length_replicate. change (32 `min` 64)%nat with 32%nat.
  fold seed.
  assert (Hseed : length seed = 32%nat) by (unfold seed; rewrite length_take; lia).
  rewrite take_app_length' by done.
  rewrite drop_app_length' by done.
  pose proof (sha512_length seed) as Hd.
  destruct (lookup_lt_is_Some_2 (sha512 seed) 0) as [d0 H0]; [lia|].
  destruct (lookup_lt_is_Some_2 (sha512 seed) 31) as [d31 H31]; [lia|].
  assert (Hc : go_copy (replicate 32 0)
                 (<[31%nat := Z.lor (Z.land d31 127) 64]>
                    (<[31%nat := Z.land d31 127]>
                       (<[0%nat := Z.land d0 248]> (sha512 seed))))
               = clamped (sha512 seed)).
  { rewrite go_copy_longer by (rewrite !length_insert, length_replicate; lia).
    rewrite length_replicate, list_insert_insert_eq. unfold clamped.
    by rewrite !nth_lookup, H0, H31. }
  unfold Sum. cbn [mbind M_bind].
  rewrite (update_at_Some _ 0 _ d0 H0). cbn [mbind M_bind].
  rewrite (update_at_Some _ 31 _ d31) by (by rewrite list_lookup_insert_ne).
  cbn [mbind M_bind].
  rewrite (update_at_Some _ 31 _ (Z.land d31 127))
    by (apply list_lookup_insert_eq; rewrite length_insert; lia).
  cbn [mbind M_bind]. rewrite Hc.
  unfold GeScalarMultBase, ToBytes. cbn [mbind M_bind mret M_ret app].
  fold pub.
  rewrite go_copy_same_length
    by (rewrite length_drop, length_replicate; unfold pub; rewrite ge_to_bytes_length; lia).
  reflexivity.
Qed.

(** C4. When the reader delivers 32 bytes, [GenerateKey] hashes them and
    calls [GeScalarMultBase], once and after the hash, on the first 32 bytes
    of the digest with byte 0 replaced by [digest[0] & 248] and byte 31 by
    [(digest[31] & 127) | 64]: bits 0, 1 and 2 of byte 0 and bit 7 of byte 31
    are clear, bit 6 of byte 31 is set, and the bytes in between are the
    digest's. *)
Theorem GenerateKey_clamps (rand : Reader) :
  (32 <= length (pending rand))%nat ->
  exists (h : list byte) (d0 d31 : byte),
    let digest := sha512 (take 32 (pending rand)) in
    snd (GenerateKey rand)
    = [CallSha512 (take 32 (pending rand)); CallGeScalarMultBase h; CallToBytes] /\
    length h = 32%nat /\
    digest !! 0%nat = Some d0 /\ digest !! 31%nat = Some d31 /\
    h !! 0%nat = Some (Z.land d0 248) /\
    h !! 31%nat = Some (Z.lor (Z.land d31 127) 64) /\
    (forall i, (0 < i < 31)%nat -> h !! i = digest !! i) /\
    (forall k, 0 <= k < 3 -> Z.testbit (Z.land d0 248) k = false) /\
    Z.testbit (Z.lor (Z.land d31 127) 64) 7 = false /\
    Z.testbit (Z.lor (Z.land d31 127) 64) 6 = true.
Proof.
  intros Hlen. rewrite (GenerateKey_success rand Hlen). cbn [snd].
  set (seed := take 32 (pending rand)).
  pose proof (sha512_length seed) as Hd.
  destruct (lookup_lt_is_Some_2 (sha512 seed) 0) as [d0 H0]; [lia|].
  destruct (lookup_lt_is_Some_2 (sha512 seed) 31) as [d31 H31]; [lia|].
  exists (clamped (sha512 seed)), d0, d31. cbn zeta.
  split; [reflexivity|].
  unfold clamped. rewrite !nth_lookup, H0, H31. cbn [default id from_option].
  split; [rewrite length_take, !length_insert; lia|].
  split; [reflexivity|]. split; [reflexivity|].
  split.
  { rewrite lookup_take_lt by lia.
    rewrite list_lookup_insert_ne by lia.
    apply list_lookup_insert_eq. lia. }
  split.
  { rewrite lookup_take_lt by lia.
    apply list_lookup_insert_eq. rewrite length_insert. lia. }
  split.
  { intros i Hi. rewrite lookup_take_lt by lia.
    by rewrite !list_lookup_insert_ne by lia. }
  split.
  { intros k Hk. rewrite Z.land_spec.
    assert (k = 0 \/ k = 1 \/ k = 2) as [-> | [-> | ->]] by lia;
      apply andb_false_r. }
  split.
  - rewrite Z.lor_spec, Z.land_spec. by destruct (Z.testbit d31 7).
  - rewrite Z.lor_spec, Z.land_spec. by destruct (Z.testbit d31 6).
Qed.


Lemma ReadFull_success (r : Reader) (buf seed : list byte) :
  ReadFull r buf = (seed, None) ->
  (length buf <= length (pending r))%nat /\ seed = take (length buf) (pending r).
Proof.
  unfold ReadFull. destruct (decide _) as [H|H]; [|discriminate].
  intros [= <-]. by split.
Qed.

(** C5. When [io.ReadFull] fills the 32-byte buffer with [seed],
    [GenerateKey] returns no error, a 32-byte public key and a 64-byte
    private key; the private key is [seed] followed by the public key, and
    the public key is [ToBytes] of [GeScalarMultBase] of the clamped digest
    of [seed]. *)
Theorem GenerateKey_keys (rand : Reader) (seed : list byte) :
  ReadFull rand (replicate 32 0) = (seed, None) ->
  exists pub priv : list byte,
    fst (GenerateKey rand) = Done (Some pub, Some priv, None) /\
    length priv = PrivateKeySize /\ length pub = PublicKeySize /\
    take 32 priv = seed /\ drop 32 priv = pub /\
    pub = ge_to_bytes (ge_scalarmult_base (clamped (sha512 seed))).
Proof.
  intros [Hlen ->]%ReadFull_success. rewrite length_replicate in *.
  rewrite (GenerateKey_success rand Hlen). cbn [fst].
  set (seed := take 32 (pending rand)).
  set (pub := ge_to_bytes _).
  assert (Hseed : length seed = 32%nat) by (unfold seed; rewrite length_take; lia).
  assert (Hpub : length pub = 32%nat) by apply ge_to_bytes_length.
  exists pub, (seed ++ pub).
  split; [reflexivity|].
  split; [rewrite length_app, Hseed, Hpub; reflexivity|].
  split; [exact Hpub|].
  split; [by rewrite take_app_length'|].
  split; [by rewrite drop_app_length'|].
  reflexivity.
Qed.

(** C10. When [io.ReadFull] returns an error, which it does exactly when
    the reader cannot deliver 32 bytes, [GenerateKey] returns [nil], [nil]
    and that error, and has called neither the hash nor the group
    arithmetic. *)
Theorem GenerateKey_read_error (rand : Reader) (buf : list byte) (e : error) :
  ReadFull rand (replicate 32 0) = (buf, Some e) ->
  (length (pending rand) < 32)%nat /\
  GenerateKey rand = (Done (None, None, Some e), []).
Proof.
  intros H. split.
  - apply ReadFull_error in H. by rewrite length_replicate in H.
  - unfold GenerateKey.
    change (take 32 (replicate 64 0)) with (replicate 32 0).
    by rewrite H.
Qed.

(** *** Further properties of [GenerateKey] *)

(** X7. The keys depend on the reader only through its first 32 bytes: two
    readers that can deliver 32 bytes and agree on them give the same
    result and the same calls, whatever follows in either stream. *)
Theorem GenerateKey_seed_only (r1 r2 : Reader) :
  (32 <= length (pending r1))%nat -> (32 <= length (pending r2))%nat ->
  take 32 (pending r1) = take 32 (pending r2) ->
  GenerateKey r1 = GenerateKey r2.
Proof.
  intros H1 H2 E.
  rewrite (GenerateKey_success r1 H1), (GenerateKey_success r2 H2).
  cbn zeta. by rewrite E.
Qed.


End GenerateKey.

(** *** A run on stand-ins for the hash and the group arithmetic

    [demo_hash] is not SHA-512 and [demo_mult], [demo_bytes] are not the
    curve: they only have the lengths the parameters are assumed to have, so
    that [GenerateKey] can be run. *)

Definition demo_hash (m : list byte) : list byte :=
  take 64 (map (fun b => Z.lxor b 255) m ++ replicate 64 255).
Definition demo_mult (a : list byte) : list byte := rev a.
Definition demo_bytes (A : list byte) : list byte := take 32 (A ++ replicate 32 0).

Definition demo_reader : Reader := MkReader (map Z.of_nat (seq 1 40)) EOF.
Definition short_reader : Reader := MkReader [7; 8; 9] EOF.
Definition empty_reader : Reader := MkReader [] EOF.
Definition broken_reader : Reader := MkReader [7; 8; 9] (ErrOther 5).

Lemma demo_hash_length (m : list byte) : length (demo_hash m) = 64%nat.
Proof.
  unfold demo_hash. rewrite length_take, length_app, length_replicate. lia.
Qed.

Lemma demo_bytes_length (A : list byte) : length (demo_bytes A) = 32%nat.
Proof.
  unfold demo_bytes. rewrite length_take, length_app, length_replicate. lia.
Qed.

Example GenerateKey_demo_run :
  GenerateKey demo_hash (list byte) demo_mult demo_bytes demo_reader
  = (Done
       (Some ([95] ++ map Z.of_nat (seq 224 30) ++ [248]),
        Some (map Z.of_nat (seq 1 32)
              ++ [95] ++ map Z.of_nat (seq 224 30) ++ [248]),
        None),
     [CallSha512 (map Z.of_nat (seq 1 32));
      CallGeScalarMultBase
        ([248] ++ map Z.of_nat (rev (seq 224 30)) ++ [95]);
      CallToBytes]).
Proof. vm_compute. reflexivity. Qed.

Example ReadFull_short :
  ReadFull short_reader (replicate 32 0)
  = ([7; 8; 9] ++ replicate 29 0, Some ErrUnexpectedEOF).
Proof. reflexivity. Qed.

Example ReadFull_empty :
  ReadFull empty_reader (replicate 32 0) = (replicate 32 0, Some EOF).
Proof. reflexivity. Qed.

Example ReadFull_broken :
  ReadFull broken_reader (replicate 32 0)
  = ([7; 8; 9] ++ replicate 29 0, Some (ErrOther 5)).
Proof. reflexivity. Qed.

Lemma GenerateKey_clamps_witness :
  exists (h : list byte) (d0 d31 : byte),
    let digest := demo_hash (take 32 (pending demo_reader)) in
    snd (GenerateKey demo_hash (list byte) demo_mult demo_bytes demo_reader)
    = [CallSha512 (take 32 (pending demo_reader)); CallGeScalarMultBase h; CallToBytes] /\
    length h = 32%nat /\
    digest !! 0%nat = Some d0 /\ digest !! 31%nat = Some d31 /\
    h !! 0%nat = Some (Z.land d0 248) /\
    h !! 31%nat = Some (Z.lor (Z.land d31 127) 64) /\
    (forall i, (0 < i < 31)%nat -> h !! i = digest !! i) /\
    (forall k, 0 <= k < 3 -> Z.testbit (Z.land d0 248) k = false) /\
    Z.testbit (Z.lor (Z.land d31 127) 64) 7 = false /\
    Z.testbit (Z.lor (Z.land d31 127) 64) 6 = true.
Proof.
  apply (GenerateKey_clamps demo_hash (list byte) demo_mult demo_bytes
           demo_hash_length demo_bytes_length demo_reader).
  vm_compute. lia.
Defined.

Lemma GenerateKey_keys_witness :
  exists pub priv : list byte,
    fst (GenerateKey demo_hash (list byte) demo_mult demo_bytes demo_reader)
    = Done (Some pub, Some priv, None) /\
    length priv = PrivateKeySize /\ length pub = PublicKeySize /\
    take 32 priv = map Z.of_nat (seq 1 32) /\ drop 32 priv = pub /\
    pub = demo_bytes (demo_mult (clamped (demo_hash (map Z.of_nat (seq 1 32))))).
Proof.
  apply (GenerateKey_keys demo_hash (list byte) demo_mult demo_bytes
           demo_hash_length demo_bytes_length demo_reader).
  reflexivity.
Defined.

Lemma GenerateKey_read_error_witness :
  (length (pending short_reader) < 32)%nat /\
  GenerateKey demo_hash (list byte) demo_mult demo_bytes short_reader
  = (Done (None, None, Some ErrUnexpectedEOF), []).
Proof.
  apply (GenerateKey_read_error demo_hash (list byte) demo_mult demo_bytes
           short_reader ([7; 8; 9] ++ replicate 29 0) ErrUnexpectedEOF).
  reflexivity.
Defined.

Definition long_reader : Reader :=
  MkReader (map Z.of_nat (seq 1 32) ++ [200; 201]) (ErrOther 9).

Lemma GenerateKey_seed_only_witness :
  GenerateKey demo_hash (list byte) demo_mult demo_bytes demo_reader
  = GenerateKey demo_hash (list byte) demo_mult demo_bytes long_reader.
Proof.
  apply (GenerateKey_seed_only demo_hash (list byte) demo_mult demo_bytes
           demo_hash_length demo_bytes_length demo_reader long_reader).
  - vm_compute. lia.
  - vm_compute. lia.
  - reflexivity.
Defined.


End Keygen.

(** ** Keys and (R, S) signatures, from the specification *)

Module RS.

(** Little-endian and big-endian fixed-width byte strings. *)
Fixpoint le_encode (n : nat) (z : Z) : list byte :=
  match n with
  | O => []
  | S n' => z mod 256 :: le_encode n' (z / 256)
  end.

Fixpoint le_decode (bs : list byte) : Z :=
  match bs with
  | [] => 0
  | b :: bs' => b + 256 * le_decode bs'
  end.

Definition be_encode (n : nat) (z : Z) : list byte := rev (le_encode n z).
Definition be_decode (bs : list byte) : Z := le_decode (rev bs).

Lemma length_le_encode (n : nat) (z : Z) : length (le_encode n z) = n.
Proof. revert z; induction n as [|n IH]; intros z; simpl; [done | by rewrite IH]. Qed.

Lemma le_decode_encode (n : nat) (z : Z) :
  le_decode (le_encode n z) = z mod 256 ^ Z.of_nat n.
Proof.
  revert z; induction n as [|n IH]; intros z.
  - simpl. by rewrite Z.mod_1_r.
  - cbn [le_encode le_decode]. rewrite IH.
    rewrite Nat2Z.inj_succ, Z.pow_succ_r by lia.
    rewrite Z.rem_mul_r by lia. reflexivity.
Qed.

Lemma le_decode_encode_small (n : nat) (z : Z) :
  0 <= z < 256 ^ Z.of_nat n -> le_decode (le_encode n z) = z.
Proof. intros H. rewrite le_decode_encode. by apply Z.mod_small. Qed.

(** Modelled from the spec: the error kinds of its section 7 (the package's
    error values are not among the sources). *)
Inductive error : Set :=
  | InvalidLength
  | InvalidEncoding
  | InvalidScalar
  | InvalidSecret
  | ZeroNonce
  | ZeroR.

(** Modelled from the spec: a signature is an ordered pair (R, S) of
    integers (the type [Signature] is not among the sources). *)
Record Signature : Set := MkSignature {
  sig_R : Z;
  sig_S : Z
}.

(** Modelled from the spec: [Signature.Serialize] (not among the sources)
    emits big-endian R then big-endian S, each left-padded to 32 bytes. *)
Definition SerializeSignature (sig : Signature) : list byte :=
  be_encode 32 (sig_R sig) ++ be_encode 32 (sig_S sig).

(** Modelled from the spec: [ParseSignature] (not among the sources) fails
    with [InvalidLength] unless the input is exactly 64 bytes, and otherwise
    reads two 32-byte big-endian halves. *)
Definition ParseSignature (bs : list byte) : error + Signature :=
  if decide (length bs = 64%nat) then
    inr (MkSignature (be_decode (take 32 bs)) (be_decode (drop 32 bs)))
  else inl InvalidLength.

Lemma length_be_encode (n : nat) (z : Z) : length (be_encode n z) = n.
Proof. unfold be_encode. by rewrite length_rev, length_le_encode. Qed.

Lemma be_decode_encode_small (n : nat) (z : Z) :
  0 <= z < 256 ^ Z.of_nat n -> be_decode (be_encode n z) = z.
Proof.
  intros H. unfold be_decode, be_encode.
  rewrite rev_involutive. by apply le_decode_encode_small.
Qed.

(** Parsing undoes serialisation on components that fit 32 bytes. *)
Lemma ParseSignature_Serialize (sig : Signature) :
  0 <= sig_R sig < 2 ^ 256 -> 0 <= sig_S sig < 2 ^ 256 ->
  ParseSignature (SerializeSignature sig) = inr sig.
Proof.
  intros HR HS. unfold ParseSignature, SerializeSignature.
  rewrite decide_True by (rewrite length_app, !length_be_encode; lia).
  rewrite take_app_length' by (by rewrite length_be_encode).
  rewrite drop_app_length' by (by rewrite length_be_encode).
  rewrite !be_decode_encode_small by (change (256 ^ Z.of_nat 32) with (2 ^ 256); lia).
  by destruct sig.
Qed.

Section Model.

(** The group order, the curve arithmetic, the point codec, the hash and the
    nonce derivation are declared in files of the package that are not among
    the sources; the spec names them without defining them, and they are
    taken as parameters: [scalar_base_mult k] is [k * Basepoint],
    [double_scalar_mult a b P] is [a * Basepoint + b * P], [x_coord] the
    affine x-coordinate, [H] the message hash, [decode] the decoding of its
    section 4.3 ([None] when no valid x exists), [on_curve] the curve
    equation and [nonce d m i] the nonce of the [i]-th attempt. *)
Variable N : Z.
Variable point : Type.
Variable scalar_base_mult : Z -> point.
Variable double_scalar_mult : Z -> Z -> point -> point.
Variable x_coord : point -> Z.
Variable H : list byte -> Z.
Variable decode : list byte -> option point.
Variable on_curve : point -> bool.
Variable nonce : Z -> list byte -> nat -> Z.

(** Modelled from the spec: a private key owns a scalar [D] and the derived
    public point (the type [PrivateKey] is not among the sources). *)
Record PrivateKey : Type := MkPrivateKey {
  D : Z;
  public : point
}.

(** Modelled from the spec: the invariant of a private key, [0 < D < N] and
    the public point equal to [D * Basepoint]. *)
Definition valid_key (k : PrivateKey) : Prop :=
  0 < D k < N /\ public k = scalar_base_mult (D k).

(** Modelled from the spec: the private scalar encoding ([Serialize] is not
    among the sources) is 32 bytes, little-endian. *)
Definition Serialize (k : PrivateKey) : list byte := le_encode 32 (D k).

(** Modelled from the spec: [PrivKeyFromScalar] (not among the sources)
    reads 32 bytes as a scalar, fails with [InvalidScalar] when it is not
    reduced modulo [N] or not positive, and otherwise derives the public point by
    fixed-base multiplication.  A buffer of another size is an
    [InvalidLength]. *)
Definition PrivKeyFromScalar (bs : list byte) : error + PrivateKey :=
  if decide (length bs = 32%nat) then
    let d := le_decode bs in
    if decide (0 < d < N) then inr (MkPrivateKey d (scalar_base_mult d))
    else inl InvalidScalar
  else inl InvalidLength.

(** Modelled from the spec: [ParsePubKey] (not among the sources) fails with
    [InvalidLength] if the input is not exactly 32 bytes and with
    [InvalidEncoding] if decoding fails or the result is not a curve point. *)
Definition ParsePubKey (bs : list byte) : error + point :=
  if decide (length bs = 32%nat) then
    match decode bs with
    | Some P => if on_curve P then inr P else inl InvalidEncoding
    | None => inl InvalidEncoding
    end
  else inl InvalidLength.

(** Modelled from the spec: [VerifyRS] (not among the sources) rejects when
    R or S is zero or not below [N]; otherwise [w = S^-1], [u1 = H(m) * w],
    [u2 = R * w] modulo [N], and the x-coordinate of
    [u1 * Basepoint + u2 * PublicPoint] reduced modulo [N] is compared to R. *)
Definition VerifyRS (pub : point) (m : list byte) (R S : Z) : bool :=
  if (R =? 0) || (S =? 0) || negb (R <? N) || negb (S <? N) then false
  else
    let w := Z.invmod S N in
    let u1 := (H m * w) mod N in
    let u2 := (R * w) mod N in
    x_coord (double_scalar_mult u1 u2 pub) mod N =? R.

(** Modelled from the spec: one signing attempt with nonce [k] ([SignRS] is
    not among the sources): R is the x-coordinate of [k * Basepoint] modulo
    [N], and [S = k^-1 * (H(m) + D * R) mod N]. *)
Definition sign_with (d : Z) (m : list byte) (k : Z) : error + Signature :=
  if decide (k mod N = 0) then inl ZeroNonce
  else
    let r := x_coord (scalar_base_mult k) mod N in
    if decide (r = 0) then inl ZeroR
    else inr (MkSignature r ((Z.invmod k N * (H m + d * r)) mod N)).

(** Modelled from the spec: [SignRS] regenerates the nonce and retries; the
    error of the last attempt surfaces when the retries are exhausted. *)
Fixpoint SignRS_from (retries i : nat) (d : Z) (m : list byte) : error + Signature :=
  match sign_with d m (nonce d m i), retries with
  | inr sig, _ => inr sig
  | inl e, O => inl e
  | inl _, S retries' => SignRS_from retries' (S i) d m
  end.

Definition SignRS (retries : nat) (k : PrivateKey) (m : list byte) : error + Signature :=
  SignRS_from retries 0 (D k) m.

(** *** Parsing *)

(** C3. [ParseSignature] returns [InvalidLength] exactly on the buffers
    whose length is not 64, and returns a signature exactly on the buffers
    of 64 bytes; the all-zero buffer of 64 bytes parses and its (R, S) is
    rejected by [VerifyRS] under every key and message. *)
Theorem ParseSignature_length (bs : list byte) :
  (ParseSignature bs = inl InvalidLength <-> length bs <> 64%nat) /\
  ((exists sig, ParseSignature bs = inr sig) <-> length bs = 64%nat) /\
  (exists sig, ParseSignature (replicate 64 0) = inr sig /\
     forall pub m, VerifyRS pub m (sig_R sig) (sig_S sig) = false).
Proof.
  unfold ParseSignature. split; [|split].
  - destruct (decide (length bs = 64%nat)) as [E|E]; split; try done.
  - destruct (decide (length bs = 64%nat)) as [E|E]; split; try done.
    + intros _. by eexists.
    + by intros [sig ?].
  - eexists. split; [reflexivity|]. intros pub m. reflexivity.
Qed.

(** C7. [ParsePubKey] returns [InvalidLength] on every buffer whose length is
    not 32: on 33-byte and 31-byte buffers, and on a valid encoding with one
    byte appended or with the byte at any position removed. *)
Theorem ParsePubKey_length :
  (forall bs, length bs <> 32%nat -> ParsePubKey bs = inl InvalidLength) /\
  (forall bs, length bs = 33%nat -> ParsePubKey bs = inl InvalidLength) /\
  (forall bs, length bs = 31%nat -> ParsePubKey bs = inl InvalidLength) /\
  (forall e P b, ParsePubKey e = inr P ->
     ParsePubKey (e ++ [b]) = inl InvalidLength) /\
  (forall e P pos, ParsePubKey e = inr P -> (pos < 32)%nat ->
     ParsePubKey (take pos e ++ drop (S pos) e) = inl InvalidLength).
Proof.
  assert (Hlen : forall bs, length bs <> 32%nat -> ParsePubKey bs = inl InvalidLength).
  { intros bs Hbs. unfold ParsePubKey. by rewrite decide_False. }
  assert (Hok : forall e P, ParsePubKey e = inr P -> length e = 32%nat).
  { intros e P. unfold ParsePubKey. by destruct (decide (length e = 32%nat)). }
  split; [exact Hlen|].
  split; [intros bs Hbs; apply Hlen; lia|].
  split; [intros bs Hbs; apply Hlen; lia|].
  split.
  - intros e P b He%Hok. apply Hlen. rewrite length_app. simpl. lia.
  - intros e P pos He%Hok Hpos. apply Hlen.
    rewrite length_app, length_take, length_drop. lia.
Qed.

(** *** Verification *)

Lemma VerifyRS_true_range (pub : point) (m : list byte) (R S : Z) :
  VerifyRS pub m R S = true -> R <> 0 /\ S <> 0 /\ R < N /\ S < N.
Proof.
  unfold VerifyRS.
  destruct (R =? 0) eqn:E1; [done|]. destruct (S =? 0) eqn:E2; [done|].
  destruct (R <? N) eqn:E3; [|done]. destruct (S <? N) eqn:E4; [|done].
  intros _. apply Z.eqb_neq in E1, E2. apply Z.ltb_lt in E3, E4. done.
Qed.

(** C8. [VerifyRS] is a total function into the booleans, and it returns
    [false] whenever R = 0, S = 0, R >= N or S >= N. *)
Theorem VerifyRS_rejects_out_of_range (pub : point) (m : list byte) (R S : Z) :
  R = 0 \/ S = 0 \/ N <= R \/ N <= S -> VerifyRS pub m R S = false.
Proof.
  intros Hbad. destruct (VerifyRS pub m R S) eqn:E; [|reflexivity].
  apply VerifyRS_true_range in E. lia.
Qed.

(** *** Keys *)

(** A scalar below the group order fits the 32-byte encoding. *)
Hypothesis N_fits : N <= 2 ^ 256.

(** C6. For a valid private key [k], [PrivKeyFromScalar (Serialize k)]
    succeeds with a key that has the scalar, and the public point, of [k]. *)
Theorem PrivKeyFromScalar_Serialize (k : PrivateKey) :
  valid_key k ->
  exists k', PrivKeyFromScalar (Serialize k) = inr k' /\
             D k' = D k /\ public k' = public k.
Proof.
  intros [HD Hpub]. unfold PrivKeyFromScalar, Serialize.
  rewrite decide_True by apply length_le_encode.
  rewrite le_decode_encode_small by (change (256 ^ Z.of_nat 32) with (2 ^ 256); lia).
  rewrite decide_True by done.
  eexists. split; [reflexivity|]. by split.
Qed.

(** *** Signing then verifying *)

Hypothesis N_prime : Z.prime N.
Hypothesis base_mult_mod : forall a,
  scalar_base_mult (a mod N) = scalar_base_mult a.
Hypothesis double_mult_base : forall a b d,
  double_scalar_mult a b (scalar_base_mult d) = scalar_base_mult (a + b * d).

Lemma recombine_nonce (k ki w s E : Z) :
  (ki * k) mod N = 1 -> (w * s) mod N = 1 -> s = (ki * E) mod N ->
  (w * E) mod N = k mod N.
Proof.
  assert (HN : N <> 0) by (intros HN; rewrite HN in N_prime; by apply Z.not_prime_0).
  intros Hk Hw ->. rewrite Z.mul_mod_idemp_r in Hw by done.
  transitivity ((ki * k * (w * E)) mod N).
  - by rewrite <- (Z.mul_mod_idemp_l (ki * k)), Hk, Z.mul_1_l.
  - replace (ki * k * (w * E)) with (k * (w * (ki * E))) by ring.
    by rewrite <- (Z.mul_mod_idemp_r k), Hw, Z.mul_1_r.
Qed.

Lemma sign_with_verifies (d : Z) (m : list byte) (k : Z) (sig : Signature) :
  sign_with d m k = inr sig -> sig_S sig <> 0 ->
  VerifyRS (scalar_base_mult d) m (sig_R sig) (sig_S sig) = true.
Proof.
  pose proof (Z.prime_ge_2 _ N_prime) as HN.
  unfold sign_with.
  destruct (decide (k mod N = 0)) as [|Hk]; [done|].
  destruct (decide (_ = 0)) as [|Hr]; [done|].
  intros [= <-]. cbn [sig_R sig_S]. intros Hs.
  set (r := x_coord (scalar_base_mult k) mod N) in *.
  set (s := (Z.invmod k N * (H m + d * r)) mod N) in *.
  assert (Er : r = x_coord (scalar_base_mult k) mod N) by reflexivity.
  assert (Es : s = (Z.invmod k N * (H m + d * r)) mod N) by reflexivity.
  assert (Br : 0 <= r < N) by (apply Z.mod_pos_bound; lia).
  assert (Bs : 0 <= s < N) by (apply Z.mod_pos_bound; lia).
  clearbody s. clearbody r.
  assert (Hki : (Z.invmod k N * k) mod N = 1)
    by (apply Z.invmod_prime; [exact N_prime | exact Hk]).
  assert (Hw : (Z.invmod s N * s) mod N = 1).
  { apply Z.invmod_prime; [exact N_prime|]. rewrite Z.mod_small; assumption. }
  unfold VerifyRS.
  replace (r =? 0) with false by (symmetry; apply Z.eqb_neq; exact Hr).
  replace (s =? 0) with false by (symmetry; apply Z.eqb_neq; exact Hs).
  replace (r <? N) with true by (symmetry; apply Z.ltb_lt; lia).
  replace (s <? N) with true by (symmetry; apply Z.ltb_lt; lia).
  cbn [orb negb]. apply Z.eqb_eq.
  generalize dependent (Z.invmod s N). intros w Hw.
  rewrite double_mult_base, <- base_mult_mod.
  assert (E : (H m * w mod N + r * w mod N * d) mod N = k mod N).
  { rewrite Z.add_mod_idemp_l, <- Z.add_mod_idemp_r, Z.mul_mod_idemp_l,
      Z.add_mod_idemp_r by lia.
    replace (H m * w + r * w * d) with (w * (H m + d * r)) by ring.
    exact (recombine_nonce k (Z.invmod k N) w s (H m + d * r) Hki Hw Es). }
  rewrite E, base_mult_mod. symmetry. exact Er.
Qed.

Lemma SignRS_from_sign_with (retries i : nat) (d : Z) (m : list byte)
    (sig : Signature) :
  SignRS_from retries i d m = inr sig ->
  exists j, sign_with d m (nonce d m j) = inr sig.
Proof.
  revert i. induction retries as [|n IH]; intros i; simpl.
  - destruct (sign_with d m (nonce d m i)) eqn:E; [done|].
    intros [= <-]. by exists i.
  - destruct (sign_with d m (nonce d m i)) eqn:E; [apply IH|].
    intros [= <-]. by exists i.
Qed.

(** The round trip under the formulas of the spec: a signature [SignRS]
    returns is accepted if and only if its S is not zero. *)
Lemma SignRS_VerifyRS_iff (retries : nat) (k : PrivateKey) (m : list byte)
    (sig : Signature) :
  valid_key k -> SignRS retries k m = inr sig ->
  VerifyRS (public k) m (sig_R sig) (sig_S sig) = true <-> sig_S sig <> 0.
Proof.
  intros [_ ->] [j Hj]%SignRS_from_sign_with. split.
  - intros Hv%VerifyRS_true_range. tauto.
  - by apply (sign_with_verifies _ _ (nonce (D k) m j)).
Qed.

End Model.

(** *** A run on a stand-in group

    The integers modulo the order of the Ed25519 group, with 1 as base
    point and the residue itself as x-coordinate, stand in for the curve,
    and the big-endian value of the message for its hash: enough to run the
    definitions above, and a cyclic group of the right order. *)

Definition ed25519_order : Z :=
  2 ^ 252 + 27742317777372353535851937790883648493.

Definition demo_base_mult (k : Z) : Z := k mod ed25519_order.
Definition demo_double_mult (a b P : Z) : Z := (a + b * P) mod ed25519_order.
Definition demo_x (P : Z) : Z := P.
Definition demo_H (m : list byte) : Z := be_decode m mod ed25519_order.
Definition demo_decode (bs : list byte) : option Z := Some (le_decode bs).
Definition demo_on_curve (P : Z) : bool := P <? ed25519_order.
Definition demo_nonce (d : Z) (m : list byte) (i : nat) : Z := 2 + Z.of_nat i.

Definition demo_key : PrivateKey Z := MkPrivateKey Z 5 (demo_base_mult 5).

Example ParseSignature_63 : ParseSignature (replicate 63 1) = inl InvalidLength.
Proof. reflexivity. Qed.

Example ParseSignature_65 : ParseSignature (replicate 65 1) = inl InvalidLength.
Proof. reflexivity. Qed.

Example ParseSignature_64 :
  ParseSignature (replicate 31 0 ++ [7] ++ replicate 31 0 ++ [9])
  = inr (MkSignature 7 9).
Proof. reflexivity. Qed.

Example ParsePubKey_33 :
  ParsePubKey Z demo_decode demo_on_curve (Serialize Z demo_key ++ [1])
  = inl InvalidLength.
Proof. reflexivity. Qed.

Example PrivKeyFromScalar_zero :
  PrivKeyFromScalar ed25519_order Z demo_base_mult (replicate 32 0)
  = inl InvalidScalar.
Proof. reflexivity. Qed.

Example PrivKeyFromScalar_order :
  PrivKeyFromScalar ed25519_order Z demo_base_mult (le_encode 32 ed25519_order)
  = inl InvalidScalar.
Proof. vm_compute. reflexivity. Qed.

Example demo_sign_then_verify :
  SignRS ed25519_order Z demo_base_mult demo_x demo_H demo_nonce 3 demo_key [1; 2; 3]
  = inr (MkSignature 2
           3618502788666131106986593281521497120428558179689953803000975469142727158525) /\
  VerifyRS ed25519_order Z demo_double_mult demo_x demo_H (public Z demo_key) [1; 2; 3] 2
    3618502788666131106986593281521497120428558179689953803000975469142727158525
  = true.
Proof. split; lazy; reflexivity. Qed.

(** With a message whose hash is [-D * R] modulo the order, the S of the
    spec's formula is 0 and the signature is rejected. *)
Example demo_sign_zero_S :
  SignRS ed25519_order Z demo_base_mult demo_x demo_H demo_nonce 3 demo_key
    (be_encode 32 (ed25519_order - 10))
  = inr (MkSignature 2 0) /\
  VerifyRS ed25519_order Z demo_double_mult demo_x demo_H
    (public Z demo_key) (be_encode 32 (ed25519_order - 10)) 2 0 = false.
Proof. split; lazy; reflexivity. Qed.

Lemma VerifyRS_rejects_out_of_range_witness :
  VerifyRS ed25519_order Z demo_double_mult demo_x demo_H
    (public Z demo_key) [1; 2; 3] 7 ed25519_order = false.
Proof.
  apply (VerifyRS_rejects_out_of_range ed25519_order Z demo_double_mult
           demo_x demo_H).
  right. right. right. apply Z.le_refl.
Defined.

Lemma PrivKeyFromScalar_Serialize_witness :
  exists k', PrivKeyFromScalar ed25519_order Z demo_base_mult (Serialize Z demo_key)
             = inr k' /\
             D Z k' = D Z demo_key /\ public Z k' = public Z demo_key.
Proof.
  apply (PrivKeyFromScalar_Serialize ed25519_order Z demo_base_mult).
  - unfold ed25519_order. lia.
  - split; [split; reflexivity | reflexivity].
Defined.

End RS.

(** ** The scalar [GenerateKey] derives, as an integer *)

Module KeygenScalar.

Lemma byte_cases (P : Z -> bool) :
  forallb P (map Z.of_nat (seq 0 256)) = true ->
  forall d, 0 <= d < 256 -> P d = true.
Proof.
  intros H d Hd. rewrite forallb_forall in H. apply H.
  rewrite <- (Z2Nat.id d) by lia.
  apply in_map, in_seq. lia.
Qed.

Lemma low_mask_byte (d : Z) :
  0 <= d < 256 -> 0 <= Z.land d 248 < 256 /\ Z.land d 248 mod 8 = 0.
Proof.
  intros Hd.
  pose proof (byte_cases
    (fun d => (0 <=? Z.land d 248) && (Z.land d 248 <? 256)
              && (Z.land d 248 mod 8 =? 0)) eq_refl d Hd) as H.
  cbv beta in H. apply andb_prop in H as [H H3]. apply andb_prop in H as [H1 H2].
  apply Z.leb_le in H1. apply Z.ltb_lt in H2. apply Z.eqb_eq in H3. lia.
Qed.

Lemma high_mask_byte (d : Z) :
  0 <= d < 256 -> 64 <= Z.lor (Z.land d 127) 64 < 128.
Proof.
  intros Hd.
  pose proof (byte_cases
    (fun d => (64 <=? Z.lor (Z.land d 127) 64)
              && (Z.lor (Z.land d 127) 64 <? 128)) eq_refl d Hd) as H.
  cbv beta in H. apply andb_prop in H as [H1 H2].
  apply Z.leb_le in H1. apply Z.ltb_lt in H2. lia.
Qed.

Lemma le_decode_app (l l' : list byte) :
  RS.le_decode (l ++ l')
  = RS.le_decode l + 256 ^ Z.of_nat (length l) * RS.le_decode l'.
Proof.
  induction l as [|b l IH]; cbn [app RS.le_decode length].
  - rewrite Z.pow_0_r. lia.
  - rewrite IH, Nat2Z.inj_succ, Z.pow_succ_r by lia. ring.
Qed.

Lemma le_decode_bounds (l : list byte) :
  Forall (fun b => 0 <= b < 256) l ->
  0 <= RS.le_decode l < 256 ^ Z.of_nat (length l).
Proof.
  induction 1 as [|b l Hb Hl IH]; cbn [RS.le_decode length].
  - rewrite Z.pow_0_r. lia.
  - rewrite Nat2Z.inj_succ, Z.pow_succ_r by lia. lia.
Qed.

(** The clamped half digest, byte by byte. *)
Lemma clamped_split (b0 : byte) (tl : list byte) (b31 : byte) :
  tl !! 30%nat = Some b31 ->
  Keygen.clamped (b0 :: tl)
  = Z.land b0 248 :: take 30 tl ++ [Z.lor (Z.land b31 127) 64].
Proof.
  intros H31. unfold Keygen.clamped.
  assert (Hn : nth 31 (b0 :: tl) 0 = b31).
  { cbn [nth]. by rewrite nth_lookup, H31. }
  rewrite Hn. cbn [nth].
  set (c0 := Z.land b0 248). set (c31 := Z.lor (Z.land b31 127) 64).
  change (take 32 (<[31%nat := c31]> (<[0%nat := c0]> (b0 :: tl))))
    with (c0 :: take 31 (<[30%nat := c31]> tl)).
  f_equal. rewrite (take_S_r _ 30%nat c31).
  - by rewrite take_insert_ge by done.
  - apply list_lookup_insert_eq. by eapply lookup_lt_Some.
Qed.

Lemma clamped_value (digest : list byte) :
  length digest = 64%nat -> Forall (fun b => 0 <= b < 256) digest ->
  length (Keygen.clamped digest) = 32%nat /\
  Forall (fun b => 0 <= b < 256) (Keygen.clamped digest) /\
  2 ^ 254 <= RS.le_decode (Keygen.clamped digest) < 2 ^ 255 /\
  RS.le_decode (Keygen.clamped digest) mod 8 = 0.
Proof.
  intros Hlen Hall.
  destruct digest as [|b0 tl]; [discriminate Hlen|].
  cbn [length] in Hlen.
  destruct (lookup_lt_is_Some_2 tl 30) as [b31 H31]; [lia|].
  apply Forall_cons in Hall as [Hb0 Htl].
  assert (Hb31 : 0 <= b31 < 256).
  { rewrite Forall_lookup in Htl. exact (Htl _ _ H31). }
  destruct (low_mask_byte b0 Hb0) as [Hc0 Hm].
  pose proof (high_mask_byte b31 Hb31) as Hc31.
  rewrite (clamped_split b0 tl b31 H31).
  set (c0 := Z.land b0 248) in *. set (c31 := Z.lor (Z.land b31 127) 64) in *.
  clearbody c0 c31.
  assert (Hmid : Forall (fun b => 0 <= b < 256) (take 30 tl)) by (by apply Forall_take).
  assert (Hl30 : length (take 30 tl) = 30%nat) by (rewrite length_take; lia).
  pose proof (le_decode_bounds _ Hmid) as HM. rewrite Hl30 in HM.
  split; [cbn [length]; rewrite length_app, Hl30; reflexivity|].
  split.
  { apply Forall_cons. split; [exact Hc0|].
    apply Forall_app. split; [exact Hmid|].
    apply Forall_cons. split; [lia | constructor]. }
  cbn [RS.le_decode]. rewrite le_decode_app, Hl30. cbn [RS.le_decode].
  set (M := RS.le_decode (take 30 tl)) in *. clearbody M.
  change (256 ^ Z.of_nat 30) with (2 ^ 240) in *.
  split; [lia|].
  rewrite Z.add_0_r.
  replace (c0 + 256 * (M + 2 ^ 240 * c31))
    with (c0 + (32 * (M + 2 ^ 240 * c31)) * 8) by ring.
  by rewrite Z.mod_add.
Qed.

Section Scalar.

Variable sha512 : list byte -> list byte.
Variable ExtendedGroupElement : Type.
Variable ge_scalarmult_base : list byte -> ExtendedGroupElement.
Variable ge_to_bytes : ExtendedGroupElement -> list byte.
Hypothesis sha512_length : forall m, length (sha512 m) = 64%nat.
Hypothesis ge_to_bytes_length : forall A, length (ge_to_bytes A) = 32%nat.

(** X9. The scalar [GenerateKey] hands to [GeScalarMultBase] is, read as a
    little-endian integer, a multiple of 8 in the range [2^254, 2^255): when
    the reader delivers 32 bytes and the digest is 64 bytes, the one call to
    [GeScalarMultBase] receives 32 bytes with that value. *)
Theorem GenerateKey_scalar_range (rand : Keygen.Reader) :
  (32 <= length (Keygen.pending rand))%nat ->
  Forall (fun b => 0 <= b < 256) (sha512 (take 32 (Keygen.pending rand))) ->
  exists h : list byte,
    snd (Keygen.GenerateKey sha512 ExtendedGroupElement ge_scalarmult_base
           ge_to_bytes rand)
    = [Keygen.CallSha512 (take 32 (Keygen.pending rand));
       Keygen.CallGeScalarMultBase h; Keygen.CallToBytes] /\
    length h = 32%nat /\
    Forall (fun b => 0 <= b < 256) h /\
    2 ^ 254 <= RS.le_decode h < 2 ^ 255 /\
    RS.le_decode h mod 8 = 0.
Proof.
  intros Hlen Hbytes.
  exists (Keygen.clamped (sha512 (take 32 (Keygen.pending rand)))).
  split.
  - by rewrite (Keygen.GenerateKey_success sha512 ExtendedGroupElement
                  ge_scalarmult_base ge_to_bytes sha512_length
                  ge_to_bytes_length rand Hlen).
  - apply clamped_value; [apply sha512_length | exact Hbytes].
Qed.

End Scalar.

Lemma GenerateKey_scalar_range_witness :
  exists h : list byte,
    snd (Keygen.GenerateKey Keygen.demo_hash (list byte) Keygen.demo_mult
           Keygen.demo_bytes Keygen.demo_reader)
    = [Keygen.CallSha512 (take 32 (Keygen.pending Keygen.demo_reader));
       Keygen.CallGeScalarMultBase h; Keygen.CallToBytes] /\
    length h = 32%nat /\
    Forall (fun b => 0 <= b < 256) h /\
    2 ^ 254 <= RS.le_decode h < 2 ^ 255 /\
    RS.le_decode h mod 8 = 0.
Proof.
  apply (GenerateKey_scalar_range Keygen.demo_hash (list byte) Keygen.demo_mult
           Keygen.demo_bytes Keygen.demo_hash_length Keygen.demo_bytes_length
           Keygen.demo_reader).
  - vm_compute. lia.
  - apply (bool_decide_unpack _). vm_compute. exact I.
Defined.

End KeygenScalar.
